(** * The permission-carrying object model of the interpreter

    Shallow embedding of [server/interpreter/object/object.go]: the
    [Value] interface, the [Object] struct with its property table and
    prototype link, the [property] descriptor, the methods
    [Object.GetProperty] and [Object.SetProperty], and the root prototype
    [ObjectProto].

    Go data is rendered as follows.
    - A value of type [map[string]property] is either nil or a reference
      to a table; the tables live in a store indexed by references, so
      that two Objects whose [properties] fields hold the same reference
      (a struct copy, a literal that reuses a map) share one table and see
      each other's writes.  The two-result lookup [pd, ok := m[name]] is
      [map_get] ([Some pd] for [ok = true], [None] for [ok = false]; on a
      nil map it is [None]); the assignment [m[name] = pd] is [map_set],
      which panics on a nil map.
    - A pointer [*Object] is a location into a store of Object cells.
    - A pointer [*Owner] or [*ErrorMsg] is an [option]; [nil] is [None].
    - A call that panics (nil dereference, assignment to an entry of a nil
      map) does not return: its result is [None]. *)

From stdpp Require Import gmap strings list fin_maps.

Open Scope string_scope.

(** ** Types declared outside object.go *)

(** Locations of Object cells. *)
Definition loc : Type := positive.

(** Modelled from the spec: the declaration of [Owner] is missing from the
    sources.  An Owner is an opaque principal identity with no behaviour
    beyond identity comparison (reference equality, never structural); it
    is represented by the address that identifies it. *)
Definition Owner : Type := N.

(** Modelled from the spec: the declaration of [ErrorMsg] is missing from
    the sources.  It carries a coarse kind tag and a human-readable
    message; absence of a property is not an error, so there is no
    not-found kind. *)
Inductive ErrorKind : Type :=
| PermissionDenied
| MalformedRequest.

Record ErrorMsg : Type := mkErrorMsg {
  kind : ErrorKind;
  message : string
}.

(** The implementations of the [Value] interface.  object.go builds
    [Undefined{}] and [Null{}] and implements the interface for
    [*Object]; the remaining primitives are the ones the interface comment
    lists (number, string, boolean).  A [Number] carries an integral
    payload, which is all that is needed here. *)
Inductive Value : Type :=
| Undefined
| Null
| Boolean (b : bool)
| Number (n : Z)
| Str (s : string)
| ObjectPtr (l : loc).

(** ** The property descriptor

    [owner]: who owns the property (has permission to write it);
    [v]: the actual value; [r]: world-readable; [e]: enumerable;
    [i]: ownership inherited on children. *)
Module property.

Record t : Type := mk {
  owner : option Owner;
  v : Value;
  r : bool;
  e : bool;
  i : bool
}.

(** [pd.v = value] on the local copy [pd] of a descriptor. *)
Definition set_v (pd : t) (value : Value) : t :=
  {| owner := owner pd; v := value; r := r pd; e := e pd; i := i pd |}.

End property.

(** ** Go maps from names to descriptors *)

(** References to tables.  A map value is [None] (nil) or [Some t]. *)
Definition tref : Type := positive.

Abbreviation table := (gmap string property.t).

(** The table a reference denotes.  A reference the store has no entry
    for denotes a made table that is still empty. *)
Definition contents (ts : gmap tref table) (t : tref) : table :=
  default ∅ (ts !! t).

(** [pd, ok := m[name]].  Reading a nil map finds nothing. *)
Definition map_get (ts : gmap tref table) (m : option tref) (name : string)
  : option property.t :=
  match m with
  | None => None
  | Some t => contents ts t !! name
  end.

(** [m[name] = pd].  Writing an entry of a nil map panics. *)
Definition map_set (ts : gmap tref table) (m : option tref) (name : string)
    (pd : property.t) : option (gmap tref table) :=
  match m with
  | None => None
  | Some t => Some (<[t := <[name := pd]> (contents ts t)]> ts)
  end.

(** ** Objects *)
Module Object.

Record t : Type := mk {
  owner : option Owner;
  parent : Value;
  properties : option tref;
  f : bool
}.

Definition Type_ (this : t) : string := "object".

Definition IsPrimitive (this : t) : bool := false.

Definition Parent (this : t) : Value := parent this.

(** [func (this Object) GetProperty(name string) (Value, *ErrorMsg)]:
    only [this.properties] is consulted and no permission is checked. *)
Definition GetProperty (ts : gmap tref table) (this : t) (name : string)
  : Value * option ErrorMsg :=
  match map_get ts (properties this) name with
  | None => (Undefined, None)
  | Some pd => (property.v pd, None)
  end.

(** [func (this *Object) SetProperty(name string, value Value) *ErrorMsg].
    No field of [*this] is assigned; the table [this.properties] refers to
    is written in place, so the call is a function from the store of
    tables before it to the store after it and the returned error. *)
Definition SetProperty (ts : gmap tref table) (this : t) (name : string)
    (value : Value) : option (gmap tref table * option ErrorMsg) :=
  match map_get ts (properties this) name with
  | Some pd => (* Updating existing property *)
      ts' ← map_set ts (properties this) name (property.set_v pd value);
      Some (ts', None)
  | None => (* Creating new property *)
      ts' ← map_set ts (properties this) name
              {| property.owner := owner this;
                 property.v := value;
                 property.r := true;
                 property.e := true;
                 property.i := false |};
      Some (ts', None)
  end.

End Object.

(** ** The heap and calls through pointers *)

Record heap : Type := Heap {
  cells : gmap loc Object.t;
  tables : gmap tref table
}.

(** [recv.GetProperty(name)] for [recv : *Object]: the receiver is
    dereferenced and copied. *)
Definition GetProperty (h : heap) (recv : loc) (name : string)
  : option (Value * option ErrorMsg) :=
  this ← cells h !! recv;
  Some (Object.GetProperty (tables h) this name).

(** [recv.SetProperty(name, value)] for [recv : *Object]; the heap after
    the call is returned with the error. *)
Definition SetProperty (h : heap) (recv : loc) (name : string) (value : Value)
  : option (heap * option ErrorMsg) :=
  this ← cells h !! recv;
  res ← Object.SetProperty (tables h) this name value;
  Some (Heap (cells h) res.1, res.2).

(** The descriptor found under [name] in the own table of the Object at
    [l], if any. *)
Definition descriptor (h : heap) (l : loc) (name : string) : option property.t :=
  this ← cells h !! l;
  map_get (tables h) (Object.properties this) name.

(** The Objects visited by following [Parent()] from [v], nearest first,
    for at most [fuel] steps.  The walk stops at the first Value that is
    not an Object ([Null] for a well-formed chain). *)
Fixpoint protoChain (fuel : nat) (h : heap) (v : Value) : list loc :=
  match v, fuel with
  | ObjectPtr l, S k =>
      match cells h !! l with
      | Some this => l :: protoChain k h (Object.Parent this)
      | None => []
      end
  | _, _ => []
  end.

(** ** ObjectProto

    [var ObjectProto = &Object{parent: Null{}, properties: make(...)}]:
    the fields [owner] and [f] take their zero values and [properties]
    refers to a fresh, empty table. *)
Definition ObjectProto_table : tref := 1%positive.

Definition ObjectProto_cell : Object.t :=
  {| Object.owner := None;
     Object.parent := Null;
     Object.properties := Some ObjectProto_table;
     Object.f := false |}.

Definition ObjectProto : loc := 1%positive.

(** The heap right after package initialisation. *)
Definition initial_heap : heap :=
  Heap {[ ObjectProto := ObjectProto_cell ]} {[ ObjectProto_table := ∅ ]}.

(** ** Notions used to state the properties *)

(** The own table of an Object: what its [properties] field denotes,
    nothing for a nil map. *)
Definition own_table (h : heap) (this : Object.t) : table :=
  match Object.properties this with
  | None => ∅
  | Some t => contents (tables h) t
  end.

(** Two descriptors carry the same permission fields. *)
Definition same_permissions (pd pd' : property.t) : Prop :=
  property.owner pd' = property.owner pd ∧
  property.r pd' = property.r pd ∧
  property.e pd' = property.e pd ∧
  property.i pd' = property.i pd.

(** The descriptor that [Object.SetProperty] stores under [name]: the old
    one with its value replaced, or a freshly seeded one. *)
Definition stored_descriptor (ts : gmap tref table) (this : Object.t)
    (name : string) (value : Value) : property.t :=
  match map_get ts (Object.properties this) name with
  | Some pd => property.set_v pd value
  | None => property.mk (Object.owner this) value true true false
  end.

(** The heap [h] with [pd] stored under [name] in the table [t]. *)
Definition write (h : heap) (t : tref) (name : string) (pd : property.t) : heap :=
  Heap (cells h) (<[t := <[name := pd]> (contents (tables h) t)]> (tables h)).

(** No Object on the prototype chain of [v] has a descriptor for [name],
    however far the chain is followed. *)
Definition absent_in_chain (h : heap) (v : Value) (name : string) : Prop :=
  ∀ (fuel : nat) (l : loc), l ∈ protoChain fuel h v → descriptor h l name = None.

(** ** The rules of the specification, in its own words

    These three definitions follow the text of the specification, not the
    source; they are what the code is compared with. *)

(** Readability: permitted when the descriptor is world-readable, or the
    acting principal is its owner, or the acting principal is privileged. *)
Definition spec_canRead (privileged : Owner → bool) (pd : property.t)
    (actingOwner : Owner) : bool :=
  property.r pd
  || bool_decide (property.owner pd = Some actingOwner)
  || privileged actingOwner.

(** Writability of an existing descriptor: the acting principal is its
    owner, or is privileged. *)
Definition spec_canWrite (privileged : Owner → bool) (pd : property.t)
    (actingOwner : Owner) : bool :=
  bool_decide (property.owner pd = Some actingOwner)
  || privileged actingOwner.

(** The nearest descriptor for [name] on the chain receiver,
    receiver.parent(), ... *)
Definition spec_nearest (fuel : nat) (h : heap) (v : Value) (name : string)
  : option property.t :=
  head (omap (λ l, descriptor h l name) (protoChain fuel h v)).

(** ** Sequences of calls *)

(** One call [recv.SetProperty(name, value)]. *)
Record call : Type := Call {
  call_recv : loc;
  call_name : string;
  call_value : Value
}.

(** A caller that issues the calls in order, each on the heap the
    previous one left, and gives up at the first call that does not return
    a nil error. *)
Fixpoint run (calls : list call) (h : heap) : option heap :=
  match calls with
  | [] => Some h
  | c :: calls' =>
      match SetProperty h (call_recv c) (call_name c) (call_value c) with
      | Some (h', None) => run calls' h'
      | _ => None
      end
  end.

(** The table entry the call [c] writes: the table of its receiver and
    its name.  There is none when the receiver is nil or its table is. *)
Definition entry (h : heap) (c : call) : option (tref * string) :=
  this ← cells h !! call_recv c;
  t ← Object.properties this;
  Some (t, call_name c).

(** Every descriptor of the heap looks as [SetProperty] seeds it:
    world-readable, enumerable, without inherited ownership, and owned by
    the owner of an Object that refers to the table it is in. *)
Definition seeded (h : heap) : Prop :=
  ∀ (t : tref) (name : string) (pd : property.t),
    contents (tables h) t !! name = Some pd →
    property.r pd = true ∧ property.e pd = true ∧ property.i pd = false ∧
    ∃ (l : loc) (this : Object.t),
      cells h !! l = Some this ∧
      Object.properties this = Some t ∧
      property.owner pd = Object.owner this.

(** Two cells agree on everything but their property tables. *)
Definition same_shape (this this' : Object.t) : Prop :=
  Object.owner this' = Object.owner this ∧
  Object.parent this' = Object.parent this ∧
  Object.f this' = Object.f this.

(** ** Concrete principals and heaps *)

Definition Alice : Owner := 1%N.
Definition Bob : Owner := 2%N.

(** No principal is privileged. *)
Definition nobody : Owner → bool := λ _, false.

(** The chain [a -> b -> Null], both Objects owned by Alice, each with a
    table of its own. *)
Definition chain_a : loc := 2%positive.
Definition chain_b : loc := 3%positive.
Definition table_a : tref := 2%positive.
Definition table_b : tref := 3%positive.

Definition chain_cells : gmap loc Object.t :=
  {[ chain_a := Object.mk (Some Alice) (ObjectPtr chain_b) (Some table_a) false;
     chain_b := Object.mk (Some Alice) Null (Some table_b) false ]}.

Definition z7 : property.t := property.mk (Some Alice) (Number 7) true true false.
Definition z9 : property.t := property.mk (Some Alice) (Number 9) true true false.

Definition chain_empty : heap :=
  Heap chain_cells {[ table_a := ∅; table_b := ∅ ]}.

(** The same chain after [b.SetProperty("z", 7)]. *)
Definition chain_z_on_b : heap :=
  Heap chain_cells {[ table_a := ∅; table_b := {[ "z" := z7 ]} ]}.

(** The chain after a further [a.SetProperty("z", 9)], which shadows the
    "z" of [b]. *)
Definition chain_z_shadowed : heap :=
  Heap chain_cells {[ table_a := {[ "z" := z9 ]}; table_b := {[ "z" := z7 ]} ]}.



(** The chain [a -> b -> Null] in which [a] was given the map of [b]:
    both [properties] fields refer to the one table [table_b]. *)
Definition shared_cells : gmap loc Object.t :=
  {[ chain_a := Object.mk (Some Alice) (ObjectPtr chain_b) (Some table_b) false;
     chain_b := Object.mk (Some Bob) Null (Some table_b) false ]}.

Definition shared_empty : heap := Heap shared_cells {[ table_b := ∅ ]}.

(** The sharing chain after [a.SetProperty("x", 5)]. *)
Definition shared_x5 : heap :=
  Heap shared_cells
       {[ table_b := {[ "x" := property.mk (Some Alice) (Number 5) true true false ]} ]}.

(** An Object [root] with parent Null, owned by Alice. *)
Definition root : loc := 5%positive.
Definition root_table : tref := 5%positive.

Definition root_cells : gmap loc Object.t :=
  {[ root := Object.mk (Some Alice) Null (Some root_table) false ]}.

Definition x5 : property.t := property.mk (Some Alice) (Number 5) true true false.
Definition x6 : property.t := property.mk (Some Alice) (Number 6) true true false.
Definition y1 : property.t := property.mk (Some Alice) (Number 1) true true false.

Definition root_empty : heap := Heap root_cells {[ root_table := ∅ ]}.

(** [root] after Alice's [root.SetProperty("x", 5)]. *)
Definition root_x5 : heap := Heap root_cells {[ root_table := {[ "x" := x5 ]} ]}.

(** [root] after a further [root.SetProperty("x", 6)]. *)
Definition root_x6 : heap := Heap root_cells {[ root_table := {[ "x" := x6 ]} ]}.

(** [root] after [root.SetProperty("y", 1)] on the empty table. *)
Definition root_y1 : heap := Heap root_cells {[ root_table := {[ "y" := y1 ]} ]}.

(** [root] with both "x" = 5 and "y" = 1. *)
Definition root_x5_y1 : heap :=
  Heap root_cells {[ root_table := {[ "x" := x5; "y" := y1 ]} ]}.

(** The initial heap after [ObjectProto.SetProperty("y", 1)]. *)
Definition proto_y1 : heap :=
  Heap {[ ObjectProto := ObjectProto_cell ]}
       {[ ObjectProto_table := {[ "y" := property.mk None (Number 1) true true false ]} ]}.

(** [root] holding a property "x" of Alice's that is not world-readable. *)
Definition private_x : property.t :=
  property.mk (Some Alice) (Number 5) false true false.

Definition root_private : heap :=
  Heap root_cells {[ root_table := {[ "x" := private_x ]} ]}.

(** An Object built without a table: [properties] is the nil map, as in
    the zero value of the struct. *)
Definition root_nil_table : heap :=
  Heap {[ root := Object.mk (Some Alice) Null None false ]} ∅.

(** * Properties *)

(** ** Reading and writing tables *)

Lemma contents_insert_eq (ts : gmap tref table) (t : tref) (T : table) :
  contents (<[t := T]> ts) t = T.
Proof. unfold contents. by rewrite lookup_insert_eq. Qed.

Lemma contents_insert_ne (ts : gmap tref table) (t t' : tref) (T : table) :
  t ≠ t' → contents (<[t := T]> ts) t' = contents ts t'.
Proof. intros Hne. unfold contents. by rewrite lookup_insert_ne. Qed.

Lemma map_get_own_table (h : heap) (this : Object.t) (name : string) :
  map_get (tables h) (Object.properties this) name = own_table h this !! name.
Proof.
  unfold map_get, own_table. destruct (Object.properties this); [done|].
  by rewrite lookup_empty.
Qed.

(** What a lookup through any map value finds after one entry of the
    table [t] has been written. *)
Lemma map_get_insert (ts : gmap tref table) (t : tref) (name name' : string)
    (pd : property.t) (m : option tref) :
  map_get (<[t := <[name := pd]> (contents ts t)]> ts) m name'
  = if decide (m = Some t ∧ name' = name) then Some pd else map_get ts m name'.
Proof.
  unfold map_get. case_decide as Hd.
  - destruct Hd as [-> ->]. rewrite contents_insert_eq. apply lookup_insert_eq.
  - destruct m as [t'|]; [|done].
    destruct (decide (t' = t)) as [->|Hne].
    + rewrite contents_insert_eq. rewrite lookup_insert_ne; [done|].
      intros <-. by apply Hd.
    + by rewrite contents_insert_ne.
Qed.

(** ** Equations of the two methods *)

Lemma Object_GetProperty_found (ts : gmap tref table) (this : Object.t)
    (name : string) (pd : property.t) :
  map_get ts (Object.properties this) name = Some pd →
  Object.GetProperty ts this name = (property.v pd, None).
Proof. intros Hpd. unfold Object.GetProperty. by rewrite Hpd. Qed.

Lemma Object_SetProperty_eq (ts : gmap tref table) (this : Object.t)
    (name : string) (value : Value) :
  Object.SetProperty ts this name value
  = (ts' ← map_set ts (Object.properties this) name
             (stored_descriptor ts this name value);
     Some (ts', None)).
Proof.
  unfold Object.SetProperty, stored_descriptor.
  by destruct (map_get ts (Object.properties this) name).
Qed.

(** A call through a pointer returns exactly when the pointer names a
    cell whose table is not nil, and then writes one entry of that table. *)
Lemma SetProperty_Some (h h' : heap) (recv : loc) (name : string)
    (value : Value) (err : option ErrorMsg) :
  SetProperty h recv name value = Some (h', err) ↔
  ∃ this t, cells h !! recv = Some this ∧
            Object.properties this = Some t ∧
            h' = write h t name (stored_descriptor (tables h) this name value) ∧
            err = None.
Proof.
  unfold SetProperty. split.
  - destruct (cells h !! recv) as [this|] eqn:Hrecv; simpl; [|done].
    rewrite Object_SetProperty_eq.
    destruct (Object.properties this) as [t|] eqn:Ht; simpl; [|done].
    intros [= <- <-]. by exists this, t.
  - intros (this & t & -> & Ht & -> & ->). simpl.
    rewrite Object_SetProperty_eq, Ht. done.
Qed.

Lemma SetProperty_allocated (h : heap) (recv : loc) (this : Object.t) (t : tref)
    (name : string) (value : Value) :
  cells h !! recv = Some this →
  Object.properties this = Some t →
  SetProperty h recv name value
  = Some (write h t name (stored_descriptor (tables h) this name value), None).
Proof. intros Hrecv Ht. apply SetProperty_Some. by exists this, t. Qed.

(** A read returns the value of the own descriptor, or undefined. *)
Lemma GetProperty_descriptor (h : heap) (l : loc) (name : string) :
  GetProperty h l name
  = (λ _, (from_option property.v Undefined (descriptor h l name), None))
      <$> cells h !! l.
Proof.
  unfold GetProperty, descriptor, Object.GetProperty.
  destruct (cells h !! l) as [this|]; simpl; [|done].
  by destruct (map_get (tables h) (Object.properties this) name).
Qed.

Lemma descriptor_Some (h : heap) (l : loc) (name : string) (pd : property.t) :
  descriptor h l name = Some pd ↔
  ∃ this, cells h !! l = Some this ∧
          map_get (tables h) (Object.properties this) name = Some pd.
Proof.
  unfold descriptor. split.
  - destruct (cells h !! l) as [this|]; simpl; [|done]. intros Hpd. by exists this.
  - by intros (this & -> & Hpd).
Qed.

(** The descriptors seen through every Object after one entry of the
    table [t] has been written. *)
Lemma descriptor_write (h : heap) (t : tref) (name name' : string)
    (pd : property.t) (l : loc) (this : Object.t) :
  cells h !! l = Some this →
  descriptor (write h t name pd) l name'
  = if decide (Object.properties this = Some t ∧ name' = name)
    then Some pd else descriptor h l name'.
Proof.
  intros Hl. unfold descriptor, write. simpl. rewrite Hl. simpl.
  apply map_get_insert.
Qed.

Lemma descriptor_after_SetProperty (h h' : heap) (recv : loc) (this : Object.t)
    (name : string) (value : Value) (err : option ErrorMsg) :
  cells h !! recv = Some this →
  SetProperty h recv name value = Some (h', err) →
  descriptor h' recv name = Some (stored_descriptor (tables h) this name value).
Proof.
  intros Hrecv (this' & t & Hthis' & Ht & -> & _)%SetProperty_Some.
  assert (this' = this) as -> by congruence.
  rewrite (descriptor_write _ _ _ _ _ _ _ Hrecv). by rewrite decide_True.
Qed.

Lemma stored_descriptor_value (ts : gmap tref table) (this : Object.t)
    (name : string) (value : Value) :
  property.v (stored_descriptor ts this name value) = value.
Proof.
  unfold stored_descriptor.
  by destruct (map_get ts (Object.properties this) name).
Qed.

Lemma same_permissions_set_v (pd : property.t) (value : Value) :
  same_permissions pd (property.set_v pd value).
Proof. by repeat split. Qed.

(** A write assigns no field of any cell, so the prototype chains stay. *)
Lemma protoChain_write (h : heap) (t : tref) (name : string) (pd : property.t)
    (fuel : nat) (v : Value) :
  protoChain fuel (write h t name pd) v = protoChain fuel h v.
Proof.
  revert v. induction fuel as [|fuel IH]; intros [| | | | |l]; simpl; try done.
  destruct (cells h !! l); [|done]. by rewrite IH.
Qed.

(** ** C1: the lookup and the prototype chain *)

(** C1, as claimed, fails.  In the chain [a -> b -> Null] with "z" set
    only on [b] (by [b.SetProperty("z", 7)]), the nearest descriptor for
    "z" on the chain of [a] is the one on [b], holding 7, yet
    [a.GetProperty("z")] returns undefined and not 7. *)
Lemma GetProperty_does_not_walk_chain :
  SetProperty chain_empty chain_b "z" (Number 7) = Some (chain_z_on_b, None) ∧
  protoChain 3 chain_z_on_b (ObjectPtr chain_a) = [chain_a; chain_b] ∧
  descriptor chain_z_on_b chain_a "z" = None ∧
  (property.v <$> spec_nearest 3 chain_z_on_b (ObjectPtr chain_a) "z")
    = Some (Number 7) ∧
  GetProperty chain_z_on_b chain_a "z" = Some (Undefined, None) ∧
  GetProperty chain_z_on_b chain_a "z" ≠ Some (Number 7, None).
Proof. repeat split; try reflexivity. discriminate. Qed.

(** C1, amended: GetProperty resolves the name in the receiver's own
    property table only.  It returns the value of the receiver's local
    descriptor when there is one and undefined otherwise, with no error,
    and the answer is the same in every heap in which the receiver has the
    same own table, whatever its parent link and its ancestors hold.  For
    the chain [a -> b -> Null] with "z" only on [b], [a.GetProperty("z")]
    is undefined (the witness below). *)
Theorem GetProperty_own_table_only (h : heap) (recv : loc) (this : Object.t)
    (name : string) :
  cells h !! recv = Some this →
  GetProperty h recv name
    = Some (from_option property.v Undefined (own_table h this !! name), None)
  ∧ (∀ (h' : heap) (this' : Object.t),
       cells h' !! recv = Some this' →
       own_table h' this' = own_table h this →
       GetProperty h' recv name = GetProperty h recv name).
Proof.
  intros Hrecv.
  assert (∀ (g : heap) (o : Object.t), cells g !! recv = Some o →
            GetProperty g recv name
            = Some (from_option property.v Undefined (own_table g o !! name),
                    None)) as Heq.
  { intros g o Ho. rewrite GetProperty_descriptor, Ho. simpl.
    unfold descriptor. rewrite Ho. simpl. by rewrite map_get_own_table. }
  split; [by apply Heq|].
  intros h' this' Hrecv' Htable.
  by rewrite (Heq _ _ Hrecv'), (Heq _ _ Hrecv), Htable.
Qed.

Lemma GetProperty_own_table_only_witness :
  cells chain_z_on_b !! chain_a
    = Some (Object.mk (Some Alice) (ObjectPtr chain_b) (Some table_a) false) ∧
  GetProperty chain_z_on_b chain_a "z" = Some (Undefined, None).
Proof.
  split; [reflexivity|].
  apply (proj1 (GetProperty_own_table_only chain_z_on_b chain_a
                  (Object.mk (Some Alice) (ObjectPtr chain_b) (Some table_a) false)
                  "z" eq_refl)).
Defined.

(** ** C2: readability is not enforced *)

(** C2 (the code departs from it).  Whatever descriptor is stored under a
    name, GetProperty returns its value with a nil error: neither [r] nor
    [owner] is looked at.  On [root], whose "x" is owned by Alice and not
    world-readable, the rule of the specification denies Bob the read, and
    the call still returns 5 and no error. *)
Theorem GetProperty_ignores_readability :
  (∀ (ts : gmap tref table) (owner : option Owner) (parent : Value) (f : bool)
     (t : tref) (name : string) (pd : property.t),
     Object.GetProperty (<[t := <[name := pd]> (contents ts t)]> ts)
       (Object.mk owner parent (Some t) f) name
     = (property.v pd, None)) ∧
  descriptor root_private root "x" = Some private_x ∧
  property.r private_x = false ∧
  property.owner private_x = Some Alice ∧
  spec_canRead nobody private_x Bob = false ∧
  GetProperty root_private root "x" = Some (Number 5, None).
Proof.
  split; [|by repeat split].
  intros ts owner parent f t name pd. apply Object_GetProperty_found. simpl.
  rewrite contents_insert_eq. apply lookup_insert_eq.
Qed.

(** ** C3: ownership is not enforced on update *)

(** C3 (the code departs from it).  After Alice's
    [root.SetProperty("x", 5)] the descriptor of "x" is owned by Alice, so
    the rule of the specification denies Bob the write; the call
    [root.SetProperty("x", 6)] nevertheless returns a nil error and stores
    6, for there is no acting principal to compare with the owner. *)
Theorem SetProperty_ignores_ownership :
  SetProperty root_empty root "x" (Number 5) = Some (root_x5, None) ∧
  (property.owner <$> descriptor root_x5 root "x") = Some (Some Alice) ∧
  ((λ pd, spec_canWrite nobody pd Bob) <$> descriptor root_x5 root "x")
    = Some false ∧
  SetProperty root_x5 root "x" (Number 6) = Some (root_x6, None) ∧
  GetProperty root_x6 root "x" = Some (Number 6, None).
Proof. by repeat split. Qed.

(** ** C4: the owner of a created property *)

(** C4 (the code departs from it in the owner).  A property created by
    SetProperty is world-readable, enumerable and without inherited
    permissions, but its owner is the owner of the Object: Alice for
    [root], whoever acts, and nil for [ObjectProto], which no acting
    principal can equal. *)
Theorem SetProperty_seeds_object_owner :
  descriptor root_empty root "y" = None ∧
  SetProperty root_empty root "y" (Number 1) = Some (root_y1, None) ∧
  descriptor root_y1 root "y"
    = Some (property.mk (Some Alice) (Number 1) true true false) ∧
  Some Alice ≠ Some Bob ∧
  SetProperty initial_heap ObjectProto "y" (Number 1) = Some (proto_y1, None) ∧
  descriptor proto_y1 ObjectProto "y"
    = Some (property.mk None (Number 1) true true false) ∧
  (∀ actingOwner : Owner, (None : option Owner) ≠ Some actingOwner).
Proof. by repeat split. Qed.

(** ** C5: writing then reading *)

(** C5.  If [recv.SetProperty(name, value)] succeeds, the
    [recv.GetProperty(name)] that immediately follows returns [value] and
    no error. *)
Theorem SetProperty_GetProperty_roundtrip (h h' : heap) (recv : loc)
    (name : string) (value : Value) :
  SetProperty h recv name value = Some (h', None) →
  GetProperty h' recv name = Some (value, None).
Proof.
  intros Hset.
  pose proof Hset as (this & t & Hrecv & _ & Hh' & _)%SetProperty_Some.
  rewrite GetProperty_descriptor.
  rewrite (descriptor_after_SetProperty _ _ _ _ _ _ _ Hrecv Hset).
  subst h'. simpl. rewrite Hrecv. simpl. by rewrite stored_descriptor_value.
Qed.

Lemma SetProperty_GetProperty_roundtrip_witness :
  SetProperty root_empty root "x" (Number 5) = Some (root_x5, None) ∧
  GetProperty root_x5 root "x" = Some (Number 5, None).
Proof.
  split; [reflexivity|].
  apply (SetProperty_GetProperty_roundtrip root_empty root_x5 root "x" (Number 5)).
  reflexivity.
Defined.

(** ** C6: an update keeps the permission fields *)

Lemma SetProperty_update (h : heap) (recv : loc) (name : string)
    (value : Value) (pd : property.t) :
  descriptor h recv name = Some pd →
  ∃ h', SetProperty h recv name value = Some (h', None) ∧
        descriptor h' recv name = Some (property.set_v pd value).
Proof.
  intros (this & Hrecv & Hpd)%descriptor_Some.
  destruct (Object.properties this) as [t|] eqn:Ht; [|by simpl in Hpd].
  pose proof (SetProperty_allocated h recv this t name value Hrecv Ht) as Hset.
  eexists. split; [exact Hset|].
  rewrite (descriptor_after_SetProperty _ _ _ _ _ _ _ Hrecv Hset).
  unfold stored_descriptor. by rewrite Ht, Hpd.
Qed.

(** C6.  A SetProperty on a name for which the receiver has a local
    descriptor succeeds and stores that descriptor with the value replaced
    and [owner], [r], [e], [i] as they were; a second SetProperty of the
    same name to the same value succeeds too, and the permission fields
    are still those from before the first call. *)
Theorem SetProperty_update_keeps_permissions (h : heap) (recv : loc)
    (name : string) (value : Value) (pd : property.t) :
  descriptor h recv name = Some pd →
  ∃ (h1 h2 : heap) (pd1 pd2 : property.t),
    SetProperty h recv name value = Some (h1, None) ∧
    descriptor h1 recv name = Some pd1 ∧
    property.v pd1 = value ∧ same_permissions pd pd1 ∧
    SetProperty h1 recv name value = Some (h2, None) ∧
    descriptor h2 recv name = Some pd2 ∧
    property.v pd2 = value ∧ same_permissions pd pd2.
Proof.
  intros Hpd.
  destruct (SetProperty_update h recv name value pd Hpd) as (h1 & Hset1 & Hd1).
  destruct (SetProperty_update h1 recv name value _ Hd1) as (h2 & Hset2 & Hd2).
  exists h1, h2, (property.set_v pd value),
    (property.set_v (property.set_v pd value) value).
  by repeat split.
Qed.

Lemma SetProperty_update_keeps_permissions_witness :
  ∃ (h1 h2 : heap) (pd1 pd2 : property.t),
    SetProperty root_private root "x" (Number 6) = Some (h1, None) ∧
    descriptor h1 root "x" = Some pd1 ∧
    property.v pd1 = Number 6 ∧ same_permissions private_x pd1 ∧
    SetProperty h1 root "x" (Number 6) = Some (h2, None) ∧
    descriptor h2 root "x" = Some pd2 ∧
    property.v pd2 = Number 6 ∧ same_permissions private_x pd2.
Proof.
  apply (SetProperty_update_keeps_permissions root_private root "x" (Number 6)
           private_x).
  reflexivity.
Defined.

(** ** C7: what a write changes *)

(** C7, as claimed, fails.  In the chain [a -> b -> Null] where the
    [properties] fields of [a] and [b] refer to one table,
    [a.SetProperty("x", 5)] succeeds and the ancestor [b], which had no
    "x", now has one: [b.GetProperty("x")] went from undefined to 5. *)
Lemma SetProperty_writes_sharing_ancestor :
  protoChain 3 shared_empty (ObjectPtr chain_a) = [chain_a; chain_b] ∧
  descriptor shared_empty chain_b "x" = None ∧
  GetProperty shared_empty chain_b "x" = Some (Undefined, None) ∧
  SetProperty shared_empty chain_a "x" (Number 5) = Some (shared_x5, None) ∧
  descriptor shared_x5 chain_b "x"
    = Some (property.mk (Some Alice) (Number 5) true true false) ∧
  GetProperty shared_x5 chain_b "x" = Some (Number 5, None) ∧
  descriptor shared_x5 chain_b "x" ≠ descriptor shared_empty chain_b "x".
Proof. repeat split; try reflexivity. discriminate. Qed.

(** C7, amended.  A successful SetProperty inserts or overwrites exactly
    one entry, the one for [name], in the table the receiver refers to,
    and changes nothing else: no field of any Object, no other entry of
    that table, no other table.  So every Object whose table is not the
    receiver's, on the chain or not, has the descriptors it had, and the
    chains are as before; an Object that shares the receiver's table sees
    the write.  In particular, when the receiver had no local descriptor
    for [name] and an Object [p] (its parent, say) has one, the receiver
    gets a local descriptor and the one on [p] is unaltered. *)
Theorem SetProperty_frame (h h' : heap) (recv : loc) (name : string)
    (value : Value) (err : option ErrorMsg) :
  SetProperty h recv name value = Some (h', err) →
  ∃ (this : Object.t) (t : tref) (pd : property.t),
    cells h !! recv = Some this ∧
    Object.properties this = Some t ∧
    property.v pd = value ∧
    cells h' = cells h ∧
    tables h' = <[t := <[name := pd]> (contents (tables h) t)]> (tables h) ∧
    (∀ t', t' ≠ t → contents (tables h') t' = contents (tables h) t') ∧
    (∀ name', name' ≠ name → descriptor h' recv name' = descriptor h recv name') ∧
    (∀ l o, cells h !! l = Some o → Object.properties o ≠ Some t →
            ∀ name', descriptor h' l name' = descriptor h l name') ∧
    (∀ fuel v, protoChain fuel h' v = protoChain fuel h v) ∧
    (∀ fuel l o, l ∈ protoChain fuel h (Object.Parent this) →
                 cells h !! l = Some o → Object.properties o ≠ Some t →
                 ∀ name', descriptor h' l name' = descriptor h l name') ∧
    (∀ p pd_p, descriptor h recv name = None →
               descriptor h p name = Some pd_p →
               descriptor h' recv name = Some pd ∧
               descriptor h' p name = Some pd_p).
Proof.
  intros (this & t & Hrecv & Ht & -> & _)%SetProperty_Some.
  exists this, t, (stored_descriptor (tables h) this name value).
  assert (∀ l o, cells h !! l = Some o → Object.properties o ≠ Some t →
            ∀ name', descriptor
                       (write h t name (stored_descriptor (tables h) this name value))
                       l name'
                     = descriptor h l name') as Hother.
  { intros l o Hl Hne name'. rewrite (descriptor_write _ _ _ _ _ _ _ Hl).
    rewrite decide_False; [done|]. by intros [? _]. }
  split; [done|]. split; [done|].
  split; [apply stored_descriptor_value|].
  split; [done|]. split; [done|].
  split; [|split; [|split; [|split; [|split]]]].
  - intros t' Hne. simpl. by apply contents_insert_ne.
  - intros name' Hne. rewrite (descriptor_write _ _ _ _ _ _ _ Hrecv).
    rewrite decide_False; [done|]. by intros [_ ?].
  - exact Hother.
  - intros fuel v. apply protoChain_write.
  - intros fuel l o _. apply Hother.
  - intros p pd_p Hnone Hp. split.
    + rewrite (descriptor_write _ _ _ _ _ _ _ Hrecv). by rewrite decide_True.
    + pose proof Hp as (o & Ho & Hget)%descriptor_Some.
      rewrite (Hother p o Ho); [done|].
      intros Hsame. unfold descriptor in Hnone.
      rewrite Hrecv in Hnone. simpl in Hnone.
      rewrite Ht, <- Hsame in Hnone. congruence.
Qed.

Lemma SetProperty_frame_witness :
  SetProperty chain_z_on_b chain_a "z" (Number 9) = Some (chain_z_shadowed, None) ∧
  descriptor chain_z_shadowed chain_b "z" = descriptor chain_z_on_b chain_b "z" ∧
  (property.v <$> descriptor chain_z_shadowed chain_a "z") = Some (Number 9).
Proof.
  split; [reflexivity|].
  destruct (SetProperty_frame chain_z_on_b chain_z_shadowed chain_a "z"
              (Number 9) None eq_refl)
    as (this & t & pd & _ & _ & Hv & _ & _ & _ & _ & _ & _ & _ & Hshadow).
  destruct (Hshadow chain_b z7) as [Ha Hb]; [reflexivity|reflexivity|].
  split; [by rewrite Hb|]. by rewrite Ha, <- Hv.
Defined.

(** ** C8: a name absent from the chain *)

(** C8.  When no Object on the prototype chain of the receiver has a
    descriptor for [name], GetProperty returns undefined and no error. *)
Theorem GetProperty_absent_is_undefined (h : heap) (recv : loc)
    (this : Object.t) (name : string) :
  cells h !! recv = Some this →
  absent_in_chain h (ObjectPtr recv) name →
  GetProperty h recv name = Some (Undefined, None).
Proof.
  intros Hrecv Habsent.
  assert (descriptor h recv name = None) as Hd.
  { apply (Habsent 1). simpl. rewrite Hrecv. apply list_elem_of_here. }
  by rewrite GetProperty_descriptor, Hd, Hrecv.
Qed.

Lemma GetProperty_absent_is_undefined_witness :
  absent_in_chain chain_z_on_b (ObjectPtr chain_a) "y" ∧
  GetProperty chain_z_on_b chain_a "y" = Some (Undefined, None).
Proof.
  assert (absent_in_chain chain_z_on_b (ObjectPtr chain_a) "y") as Habsent.
  { intros fuel l.
    assert (l ∈ [chain_a; chain_b] → descriptor chain_z_on_b l "y" = None) as Hboth.
    { intros [->| ->%list_elem_of_singleton]%elem_of_cons; reflexivity. }
    destruct fuel as [|[|[|fuel]]].
    - intros []%elem_of_nil.
    - intros ->%list_elem_of_singleton. reflexivity.
    - exact Hboth.
    - exact Hboth. }
  split; [exact Habsent|].
  exact (GetProperty_absent_is_undefined chain_z_on_b chain_a
           (Object.mk (Some Alice) (ObjectPtr chain_b) (Some table_a) false) "y"
           eq_refl Habsent).
Defined.

(** ** C9: the root prototype *)

(** C9.  [ObjectProto] has parent Null and a made, empty property table,
    so it has no descriptor for any name and its prototype chain consists
    of itself alone. *)
Theorem ObjectProto_is_root :
  cells initial_heap !! ObjectProto = Some ObjectProto_cell ∧
  Object.Parent ObjectProto_cell = Null ∧
  Object.properties ObjectProto_cell = Some ObjectProto_table ∧
  own_table initial_heap ObjectProto_cell = ∅ ∧
  (∀ name, descriptor initial_heap ObjectProto name = None) ∧
  (∀ fuel, protoChain (S fuel) initial_heap (ObjectPtr ObjectProto) = [ObjectProto]) ∧
  (∀ fuel, protoChain fuel initial_heap (Object.Parent ObjectProto_cell) = []).
Proof.
  assert (∀ fuel, protoChain fuel initial_heap Null = []) as Hnull
    by (by intros [|fuel]).
  split; [reflexivity|]. split; [reflexivity|]. split; [reflexivity|].
  split; [reflexivity|]. split; [|split].
  - intros name.
    change (descriptor initial_heap ObjectProto name)
      with ((∅ : table) !! name).
    apply lookup_empty.
  - intros fuel.
    change (protoChain (S fuel) initial_heap (ObjectPtr ObjectProto))
      with (ObjectProto :: protoChain fuel initial_heap Null).
    by rewrite Hnull.
  - exact Hnull.
Qed.

(** ** C10: no call reports an error *)

(** C10, as claimed, fails for writes.  On an Object whose [properties]
    is the nil map the read returns undefined, but the write reaches the
    assignment to an entry of a nil map and panics: it does not return. *)
Lemma SetProperty_panics_on_nil_table :
  (Object.properties <$> cells root_nil_table !! root) = Some None ∧
  GetProperty root_nil_table root "x" = Some (Undefined, None) ∧
  SetProperty root_nil_table root "x" (Number 5) = None.
Proof. by repeat split. Qed.

(** C10, amended.  Neither method takes an acting principal and neither
    ever returns a non-nil error, so PermissionDenied is never observed.
    A read succeeds on every Object, for every name.  A write succeeds,
    for every name and value, exactly on the Objects whose property table
    is not nil; on a nil table it panics. *)
Theorem GetProperty_SetProperty_never_fail :
  (∀ (ts : gmap tref table) (this : Object.t) (name : string),
     (Object.GetProperty ts this name).2 = None) ∧
  (∀ (ts : gmap tref table) (this : Object.t) (name : string) (value : Value),
     snd <$> Object.SetProperty ts this name value
     = (λ _, None) <$> Object.properties this) ∧
  (∀ (h : heap) (recv : loc) (name : string),
     snd <$> GetProperty h recv name = (λ _, None) <$> cells h !! recv) ∧
  (∀ (h : heap) (recv : loc) (name : string) (value : Value),
     snd <$> SetProperty h recv name value
     = (λ _, None) <$> (cells h !! recv ≫= Object.properties)).
Proof.
  split; [|split; [|split]].
  - intros ts this name. unfold Object.GetProperty.
    by destruct (map_get ts (Object.properties this) name).
  - intros ts this name value. rewrite Object_SetProperty_eq.
    by destruct (Object.properties this).
  - intros h recv name. rewrite GetProperty_descriptor.
    by destruct (cells h !! recv).
  - intros h recv name value. unfold SetProperty.
    destruct (cells h !! recv) as [this|]; simpl; [|done].
    rewrite Object_SetProperty_eq.
    by destruct (Object.properties this).
Qed.

(** * Further properties of the two methods *)

(** ** How writes to tables compose *)

Lemma stored_descriptor_write (ts : gmap tref table) (t : tref)
    (name name' : string) (pd : property.t) (this : Object.t) (value : Value) :
  stored_descriptor (<[t := <[name := pd]> (contents ts t)]> ts) this name' value
  = if decide (Object.properties this = Some t ∧ name' = name)
    then property.set_v pd value
    else stored_descriptor ts this name' value.
Proof.
  unfold stored_descriptor at 1. rewrite map_get_insert.
  by case_decide.
Qed.

Lemma set_v_stored_descriptor (ts : gmap tref table) (this : Object.t)
    (name : string) (v1 v2 : Value) :
  property.set_v (stored_descriptor ts this name v1) v2
  = stored_descriptor ts this name v2.
Proof.
  unfold stored_descriptor.
  by destruct (map_get ts (Object.properties this) name).
Qed.

Lemma write_write_eq (h : heap) (t : tref) (name : string) (pd1 pd2 : property.t) :
  write (write h t name pd1) t name pd2 = write h t name pd2.
Proof.
  unfold write. simpl. f_equal.
  by rewrite contents_insert_eq, !insert_insert_eq.
Qed.

Lemma write_write_ne (h : heap) (t1 t2 : tref) (name1 name2 : string)
    (pd1 pd2 : property.t) :
  t1 ≠ t2 ∨ name1 ≠ name2 →
  write (write h t1 name1 pd1) t2 name2 pd2
  = write (write h t2 name2 pd2) t1 name1 pd1.
Proof.
  intros Hdiff. unfold write. simpl. f_equal.
  destruct (decide (t1 = t2)) as [<-|Hne].
  - destruct Hdiff as [?|Hname]; [done|].
    rewrite !contents_insert_eq, !insert_insert_eq.
    by rewrite insert_insert_ne.
  - rewrite !contents_insert_ne by done. by rewrite insert_insert_ne.
Qed.

(** ** A write is invisible to every other entry *)

(** X1.  After a successful [recv.SetProperty(name, value)], a
    GetProperty for another name, or on an Object whose table is not the
    receiver's, returns what it returned before the call. *)
Theorem SetProperty_leaves_other_reads (h h' : heap) (recv l : loc)
    (this o : Object.t) (name name' : string) (value : Value)
    (err : option ErrorMsg) :
  SetProperty h recv name value = Some (h', err) →
  cells h !! recv = Some this →
  cells h !! l = Some o →
  Object.properties o ≠ Object.properties this ∨ name' ≠ name →
  GetProperty h' l name' = GetProperty h l name'.
Proof.
  intros (this' & t & Hrecv' & Ht & -> & _)%SetProperty_Some Hrecv Hl Hother.
  assert (this' = this) as -> by congruence.
  rewrite !GetProperty_descriptor. simpl.
  rewrite (descriptor_write _ _ _ _ _ _ _ Hl).
  rewrite decide_False; [done|].
  intros [Hsame Hname]. destruct Hother as [Hne|Hne]; [|done].
  apply Hne. congruence.
Qed.

Lemma SetProperty_leaves_other_reads_witness :
  GetProperty chain_z_shadowed chain_b "z" = GetProperty chain_z_on_b chain_b "z".
Proof.
  apply (SetProperty_leaves_other_reads chain_z_on_b chain_z_shadowed
           chain_a chain_b
           (Object.mk (Some Alice) (ObjectPtr chain_b) (Some table_a) false)
           (Object.mk (Some Alice) Null (Some table_b) false)
           "z" "z" (Number 9) None).
  - reflexivity.
  - reflexivity.
  - reflexivity.
  - left. discriminate.
Defined.

(** ** The last write wins *)

(** X2.  Two successive writes of the same name on the same Object leave the
    heap exactly as the second write alone would have: the first value is
    gone without a trace, whether the first write created the property or
    updated it.  With equal values this is idempotence. *)
Theorem SetProperty_last_write_wins (h h1 h2 : heap) (recv : loc)
    (name : string) (v1 v2 : Value) (e1 e2 : option ErrorMsg) :
  SetProperty h recv name v1 = Some (h1, e1) →
  SetProperty h1 recv name v2 = Some (h2, e2) →
  SetProperty h recv name v2 = Some (h2, None).
Proof.
  intros (this & t & Hrecv & Ht & -> & _)%SetProperty_Some Hsecond.
  rewrite (SetProperty_allocated _ recv this t) in Hsecond by done.
  injection Hsecond as <- _.
  rewrite (SetProperty_allocated _ _ _ _ _ _ Hrecv Ht). simpl.
  rewrite stored_descriptor_write, decide_True by done.
  by rewrite set_v_stored_descriptor, write_write_eq.
Qed.

Lemma SetProperty_last_write_wins_witness :
  SetProperty root_empty root "x" (Number 6) = Some (root_x6, None).
Proof.
  apply (SetProperty_last_write_wins root_empty root_x5 root_x6 root "x"
           (Number 5) (Number 6) None None); reflexivity.
Defined.

(** ** Writes to different entries commute *)

(** X3.  Two successful writes that differ in the name, or whose
    receivers have different tables, can be swapped: issued in the other
    order they both succeed again and end in the same heap. *)
Theorem SetProperty_commute (h ha hab : heap) (recv1 recv2 : loc)
    (this1 this2 : Object.t) (name1 name2 : string) (v1 v2 : Value) :
  cells h !! recv1 = Some this1 →
  cells h !! recv2 = Some this2 →
  Object.properties this1 ≠ Object.properties this2 ∨ name1 ≠ name2 →
  SetProperty h recv1 name1 v1 = Some (ha, None) →
  SetProperty ha recv2 name2 v2 = Some (hab, None) →
  ∃ hb, SetProperty h recv2 name2 v2 = Some (hb, None) ∧
        SetProperty hb recv1 name1 v1 = Some (hab, None).
Proof.
  intros Hrecv1 Hrecv2 Hdiff
    (o1 & t1 & Ho1 & Ht1 & -> & _)%SetProperty_Some
    (o2 & t2 & Ho2 & Ht2 & -> & _)%SetProperty_Some.
  simpl in Ho2.
  assert (o1 = this1) as -> by congruence.
  assert (o2 = this2) as -> by congruence.
  assert (t1 ≠ t2 ∨ name1 ≠ name2) as Hentry.
  { destruct Hdiff as [Hne|Hne]; [left|by right]. congruence. }
  eexists. split; [by apply SetProperty_allocated|].
  rewrite (SetProperty_allocated _ recv1 this1 t1) by done. simpl.
  rewrite !stored_descriptor_write.
  rewrite !decide_False.
  - by rewrite (write_write_ne h t1 t2 name1 name2 _ _ Hentry).
  - intros [Hsame Hname]. destruct Hentry as [?|?]; congruence.
  - intros [Hsame Hname]. destruct Hentry as [?|?]; congruence.
Qed.

Lemma SetProperty_commute_witness :
  ∃ hb, SetProperty root_empty root "y" (Number 1) = Some (hb, None) ∧
        SetProperty hb root "x" (Number 5) = Some (root_x5_y1, None).
Proof.
  apply (SetProperty_commute root_empty root_x5 root_x5_y1 root root
           (Object.mk (Some Alice) Null (Some root_table) false)
           (Object.mk (Some Alice) Null (Some root_table) false)
           "x" "y" (Number 5) (Number 1)).
  - reflexivity.
  - reflexivity.
  - right. discriminate.
  - reflexivity.
  - reflexivity.
Defined.

(** ** The table grows by at most the written name *)

(** X4.  A successful write never removes an entry: the names of the
    receiver's table afterwards are the old names and [name].  The table
    has one entry more when [name] was new and as many as before when it
    was already there. *)
Theorem SetProperty_table_names (h h' : heap) (recv : loc) (this : Object.t)
    (name : string) (value : Value) (err : option ErrorMsg) :
  cells h !! recv = Some this →
  SetProperty h recv name value = Some (h', err) →
  ∃ this', cells h' !! recv = Some this' ∧
           dom (own_table h' this') = {[ name ]} ∪ dom (own_table h this) ∧
           size (own_table h' this')
           = match own_table h this !! name with
             | Some _ => size (own_table h this)
             | None => S (size (own_table h this))
             end.
Proof.
  intros Hrecv (this' & t & Hrecv' & Ht & -> & _)%SetProperty_Some.
  assert (this' = this) as -> by congruence.
  exists this. split; [done|].
  unfold own_table, write. rewrite Ht. simpl. rewrite contents_insert_eq. split.
  - apply dom_insert_L.
  - rewrite map_size_insert. by destruct (contents (tables h) t !! name).
Qed.

Lemma SetProperty_table_names_witness :
  ∃ this', cells root_x5_y1 !! root = Some this' ∧
           dom (own_table root_x5_y1 this') = {[ "y" ]} ∪ {[ "x" ]} ∧
           size (own_table root_x5_y1 this') = 2.
Proof.
  destruct (SetProperty_table_names root_x5 root_x5_y1 root
              (Object.mk (Some Alice) Null (Some root_table) false)
              "y" (Number 1) None eq_refl eq_refl)
    as (this' & Hthis' & Hdom & Hsize).
  exists this'. split; [exact Hthis'|]. split.
  - rewrite Hdom.
    change (own_table root_x5
              (Object.mk (Some Alice) Null (Some root_table) false))
      with ({[ "x" := x5 ]} : table).
    by rewrite dom_singleton_L.
  - rewrite Hsize. reflexivity.
Defined.

(** ** Creation ignores the chain *)



(** ** Sequences of writes *)

Lemma run_cons (c : call) (calls : list call) (h h' : heap) :
  run (c :: calls) h = Some h' ↔
  ∃ h1, SetProperty h (call_recv c) (call_name c) (call_value c) = Some (h1, None) ∧
        run calls h1 = Some h'.
Proof.
  simpl. split.
  - destruct (SetProperty h (call_recv c) (call_name c) (call_value c))
      as [[h1 [err|]]|]; try done.
    intros Hrun. by exists h1.
  - intros (h1 & -> & Hrun). done.
Qed.

(** A relation between the heap before and after that holds across no
    call, composes, and holds across every single successful write, holds
    across every run. *)
Lemma run_ind (R : heap → heap → Prop) :
  (∀ h, R h h) →
  (∀ h1 h2 h3, R h1 h2 → R h2 h3 → R h1 h3) →
  (∀ h recv name value h',
     SetProperty h recv name value = Some (h', None) → R h h') →
  ∀ calls h h', run calls h = Some h' → R h h'.
Proof.
  intros Hrefl Htrans Hstep calls.
  induction calls as [|c calls IH]; intros h h'.
  - intros [= <-]. apply Hrefl.
  - intros (h1 & Hset & Hrun)%run_cons.
    eapply Htrans; [by eapply Hstep|by apply IH].
Qed.

Lemma run_keeps_cells (calls : list call) (h h' : heap) :
  run calls h = Some h' → cells h' = cells h.
Proof.
  apply (run_ind (λ h h', cells h' = cells h)); [done|congruence|].
  by intros g recv name value g' (this & t & _ & _ & -> & _)%SetProperty_Some.
Qed.

Lemma SetProperty_keeps_permissions (h h' : heap) (recv l : loc)
    (name name' : string) (value : Value) (pd : property.t) :
  SetProperty h recv name value = Some (h', None) →
  descriptor h l name' = Some pd →
  ∃ pd', descriptor h' l name' = Some pd' ∧ same_permissions pd pd'.
Proof.
  intros (this & t & Hrecv & Ht & -> & _)%SetProperty_Some Hpd.
  pose proof Hpd as (o & Hl & Hget)%descriptor_Some.
  rewrite (descriptor_write _ _ _ _ _ _ _ Hl).
  case_decide as Hsame.
  - destruct Hsame as [Ho ->]. eexists. split; [done|].
    unfold stored_descriptor. rewrite Ht, <- Ho, Hget.
    apply same_permissions_set_v.
  - exists pd. by repeat split.
Qed.

(** X6.  Once a descriptor exists, no sequence of successful writes, to
    whatever Objects and names, removes it or changes its [owner], [r],
    [e] or [i]: only its value can differ afterwards. *)
Theorem run_keeps_permissions (calls : list call) (h h' : heap) (l : loc)
    (name : string) (pd : property.t) :
  run calls h = Some h' →
  descriptor h l name = Some pd →
  ∃ pd', descriptor h' l name = Some pd' ∧ same_permissions pd pd'.
Proof.
  intros Hrun. revert pd.
  apply (run_ind (λ h h', ∀ pd, descriptor h l name = Some pd →
                    ∃ pd', descriptor h' l name = Some pd' ∧ same_permissions pd pd'))
    with (calls := calls); [| | |done].
  - intros g pd Hpd. exists pd. by repeat split.
  - intros h1 h2 h3 H12 H23 pd Hpd.
    destruct (H12 pd Hpd) as (pd2 & Hpd2 & (Ho2 & Hr2 & He2 & Hi2)).
    destruct (H23 pd2 Hpd2) as (pd3 & Hpd3 & (Ho3 & Hr3 & He3 & Hi3)).
    exists pd3. split; [done|]. repeat split; congruence.
  - intros g recv n value g' Hset pd Hpd.
    by eapply SetProperty_keeps_permissions.
Qed.

Lemma run_keeps_permissions_witness :
  ∃ pd', descriptor root_x6 root "x" = Some pd' ∧ same_permissions x5 pd'.
Proof.
  apply (run_keeps_permissions
           [Call root "x" (Number 1); Call root "x" (Number 6)]
           root_x5 root_x6 root "x").
  - reflexivity.
  - reflexivity.
Defined.

(** ** Writes never reshape the heap *)

(** X7.  No sequence of successful writes allocates or frees an Object or
    changes the owner, the parent link or the flag [f] of one; every
    prototype chain is therefore the same after the run as before it. *)
Theorem run_keeps_shape (calls : list call) (h h' : heap) :
  run calls h = Some h' →
  dom (cells h') = dom (cells h) ∧
  (∀ l this, cells h !! l = Some this →
             ∃ this', cells h' !! l = Some this' ∧ same_shape this this') ∧
  (∀ fuel v, protoChain fuel h' v = protoChain fuel h v).
Proof.
  apply (run_ind (λ h h',
           dom (cells h') = dom (cells h) ∧
           (∀ l this, cells h !! l = Some this →
                      ∃ this', cells h' !! l = Some this' ∧ same_shape this this') ∧
           (∀ fuel v, protoChain fuel h' v = protoChain fuel h v))).
  - intros g. split; [done|]. split; [|done].
    intros l o Ho. exists o. by repeat split.
  - intros h1 h2 h3 (Hd12 & Hs12 & Hc12) (Hd23 & Hs23 & Hc23).
    split; [|split].
    + congruence.
    + intros l o1 Ho1.
      destruct (Hs12 l o1 Ho1) as (o2 & Ho2 & (Ha & Hb & Hc)).
      destruct (Hs23 l o2 Ho2) as (o3 & Ho3 & (Ha' & Hb' & Hc')).
      exists o3. split; [done|]. repeat split; congruence.
    + intros fuel v. by rewrite Hc23, Hc12.
  - intros g recv name value g' (this & t & _ & _ & -> & _)%SetProperty_Some.
    split; [done|]. split.
    + intros l o Ho. exists o. by repeat split.
    + intros fuel v. apply protoChain_write.
Qed.

Lemma run_keeps_shape_witness :
  dom (cells chain_z_shadowed) = dom (cells chain_empty) ∧
  (∀ l this, cells chain_empty !! l = Some this →
             ∃ this', cells chain_z_shadowed !! l = Some this' ∧
                      same_shape this this') ∧
  (∀ fuel v, protoChain fuel chain_z_shadowed v = protoChain fuel chain_empty v).
Proof.
  apply (run_keeps_shape
           [Call chain_b "z" (Number 7); Call chain_a "z" (Number 9)]).
  reflexivity.
Defined.

(** ** What the writes of this file can build *)

Lemma SetProperty_keeps_seeded (h h' : heap) (recv : loc) (name : string)
    (value : Value) :
  seeded h →
  SetProperty h recv name value = Some (h', None) →
  seeded h'.
Proof.
  intros Hseeded (this & t & Hrecv & Ht & -> & _)%SetProperty_Some t' n pd.
  simpl.
  destruct (decide (t' = t)) as [->|Hne].
  - rewrite contents_insert_eq.
    destruct (decide (n = name)) as [->|Hname].
    + rewrite lookup_insert_eq. intros [= <-].
      unfold stored_descriptor. rewrite Ht. simpl.
      destruct (contents (tables h) t !! name) as [old|] eqn:Hold.
      * apply (Hseeded t name old Hold).
      * repeat split. by exists recv, this.
    + rewrite lookup_insert_ne by done. apply Hseeded.
  - rewrite contents_insert_ne by done. apply Hseeded.
Qed.

(** X8.  In a heap where every descriptor is world-readable, enumerable,
    without inherited ownership, and owned by the owner of an Object that
    refers to the table holding it, every sequence of successful writes
    keeps it so.  The heap holding only [ObjectProto] is such a heap, so
    writes alone never produce a descriptor that is not world-readable or
    whose owner is not the owner of an Object with that table. *)
Theorem run_keeps_seeded (calls : list call) (h h' : heap) :
  seeded h →
  run calls h = Some h' →
  seeded h'.
Proof.
  intros Hseeded Hrun. revert Hseeded.
  apply (run_ind (λ h h', seeded h → seeded h')) with (calls := calls);
    [| | |done].
  - done.
  - intros h1 h2 h3 H12 H23 H1. by apply H23, H12.
  - intros g recv name value g' Hset Hg. by eapply SetProperty_keeps_seeded.
Qed.

Lemma run_keeps_seeded_witness :
  seeded initial_heap ∧ seeded proto_y1.
Proof.
  assert (seeded initial_heap) as Hinit.
  { intros t name pd. unfold contents, initial_heap. simpl.
    destruct (decide (t = ObjectProto_table)) as [->|Hne].
    - rewrite lookup_singleton_eq. simpl. by rewrite lookup_empty.
    - rewrite lookup_singleton_ne by done. simpl. by rewrite lookup_empty. }
  split; [exact Hinit|].
  apply (run_keeps_seeded [Call ObjectProto "y" (Number 0);
                           Call ObjectProto "y" (Number 1)]
           initial_heap proto_y1 Hinit).
  reflexivity.
Defined.

(** ** A written value stays until its entry is written again *)

Lemma entry_cells (h h' : heap) (c : call) :
  cells h' = cells h → entry h' c = entry h c.
Proof. intros Hcells. unfold entry. by rewrite Hcells. Qed.

Lemma run_leaves_descriptor (calls : list call) (h0 h h' : heap) (l : loc)
    (o : Object.t) (t : tref) (name : string) :
  cells h0 !! l = Some o →
  Object.properties o = Some t →
  Forall (λ c, entry h0 c ≠ Some (t, name)) calls →
  cells h = cells h0 →
  run calls h = Some h' →
  descriptor h' l name = descriptor h l name.
Proof.
  intros Hl Ht Hcalls. revert h.
  induction Hcalls as [|c calls Hc _ IH]; intros h Hcells.
  - by intros [= <-].
  - intros (h1 & Hset & Hrun)%run_cons.
    apply SetProperty_Some in Hset as (this & t' & Hrecv & Ht' & -> & _).
    rewrite (IH _ (Hcells : cells (write h t' _ _) = cells h0) Hrun).
    rewrite <- Hcells in Hl. rewrite (descriptor_write _ _ _ _ _ _ _ Hl).
    rewrite decide_False; [done|].
    intros [Hsame Hname]. apply Hc.
    rewrite <- (entry_cells h0 h c Hcells). unfold entry.
    rewrite Hrecv. simpl. rewrite Ht'. simpl. congruence.
Qed.

(** X9.  After a successful [recv.SetProperty(name, value)], any sequence
    of successful writes none of which writes [name] in the table of
    [recv] (through [recv] or through an Object sharing its table) leaves
    [recv.GetProperty(name)] at [value], with no error. *)
Theorem written_value_persists (calls : list call) (h h1 h2 : heap)
    (recv : loc) (this : Object.t) (t : tref) (name : string) (value : Value) :
  cells h !! recv = Some this →
  Object.properties this = Some t →
  SetProperty h recv name value = Some (h1, None) →
  Forall (λ c, entry h c ≠ Some (t, name)) calls →
  run calls h1 = Some h2 →
  GetProperty h2 recv name = Some (value, None).
Proof.
  intros Hrecv Ht Hset Hcalls Hrun.
  pose proof (descriptor_after_SetProperty _ _ _ _ _ _ _ Hrecv Hset) as Hd.
  assert (cells h1 = cells h) as Hcells.
  { by apply SetProperty_Some in Hset as (? & ? & _ & _ & -> & _). }
  rewrite GetProperty_descriptor.
  rewrite (run_leaves_descriptor calls h h1 h2 recv this t name
             Hrecv Ht Hcalls Hcells Hrun).
  rewrite Hd, (run_keeps_cells _ _ _ Hrun), Hcells, Hrecv. simpl.
  by rewrite stored_descriptor_value.
Qed.

Lemma written_value_persists_witness :
  GetProperty chain_z_shadowed chain_b "z" = Some (Number 7, None).
Proof.
  apply (written_value_persists [Call chain_a "z" (Number 9)]
           chain_empty chain_z_on_b chain_z_shadowed chain_b
           (Object.mk (Some Alice) Null (Some table_b) false) table_b
           "z" (Number 7)).
  - reflexivity.
  - reflexivity.
  - reflexivity.
  - apply Forall_cons. split; [|apply Forall_nil_2]. discriminate.
  - reflexivity.
Defined.

(** ** A write is seen through every Object sharing the table *)

(** X10.  After a successful [recv.SetProperty(name, value)], GetProperty
    of [name] on any Object whose [properties] field holds the same map as
    the receiver's returns [value], with no error. *)
Theorem SetProperty_seen_through_shared_table (h h' : heap) (recv l : loc)
    (this o : Object.t) (name : string) (value : Value) :
  cells h !! recv = Some this →
  cells h !! l = Some o →
  Object.properties o = Object.properties this →
  SetProperty h recv name value = Some (h', None) →
  GetProperty h' l name = Some (value, None).
Proof.
  intros Hrecv Hl Hsame (this' & t & Hrecv' & Ht & -> & _)%SetProperty_Some.
  assert (this' = this) as -> by congruence.
  rewrite GetProperty_descriptor.
  rewrite (descriptor_write _ _ _ _ _ _ _ Hl).
  rewrite decide_True by (split; congruence).
  simpl. rewrite Hl. simpl. by rewrite stored_descriptor_value.
Qed.

Lemma SetProperty_seen_through_shared_table_witness :
  GetProperty shared_x5 chain_b "x" = Some (Number 5, None).
Proof.
  apply (SetProperty_seen_through_shared_table shared_empty shared_x5
           chain_a chain_b
           (Object.mk (Some Alice) (ObjectPtr chain_b) (Some table_b) false)
           (Object.mk (Some Bob) Null (Some table_b) false)
           "x" (Number 5)); reflexivity.
Defined.
